(** * Speech-playback control of the text-to-speech application

    A shallow embedding of the [App] component of the repository (the
    second module found in [src/components/icons.tsx]): its seven pieces of
    React state, the voice loader installed by [useEffect], the two
    handlers [handleSpeak] and [handleStop], the inline change handlers of
    the form controls and the three callbacks wired on every utterance,
    and what it renders as far as behaviour depends on it: which controls
    are disabled, the options of the voice selector, the action button and
    its icon.

    The host engine ([window.speechSynthesis]) is not part of the
    repository.  It is modelled by what the application does to it: the
    [onvoiceschanged] slot it assigns and the chronological list of
    commands it issues.  What the engine does on its own (the value
    returned by [getVoices()], the moment it fires a callback) is an input
    of the model.

    Execution is single-threaded: a handler runs to completion and the
    component is rendered again before the next event is handled, so the
    closure of a handler ([handleSpeak] is rebuilt whenever a value it
    reads changes) sees the state the earlier handlers wrote.  A handler
    is therefore a function from the state before to the state after. *)

From Stdlib Require Import List NArith Bool String Ascii Floats Lia.
Import ListNotations.

Set Warnings "-inexact-float".

(** ** JavaScript strings *)

(** A JavaScript string is a sequence of UTF-16 code units. *)
Module JsString.

Definition t : Type := list N.

(** An ASCII literal of the source, as code units. *)
Definition lit (s : string) : t :=
  List.map N_of_ascii (list_ascii_of_string s).

(** [a === b] on strings. *)
Fixpoint eqb (a b : t) : bool :=
  match a, b with
  | [], [] => true
  | x :: a', y :: b' => N.eqb x y && eqb a' b'
  | _, _ => false
  end.

(** The code units [String.prototype.trim] removes: ECMAScript's
    WhiteSpace (TAB, VT, FF, ZWNBSP and the space separators) and
    LineTerminator (LF, CR, LS, PS).  All of them lie in the basic
    plane, so each is one code unit. *)
Definition isWhiteSpace (c : N) : bool :=
  (N.leb 9 c && N.leb c 13)
  || N.eqb c 32 || N.eqb c 160 || N.eqb c 5760
  || (N.leb 8192 c && N.leb c 8202)
  || N.eqb c 8232 || N.eqb c 8233 || N.eqb c 8239
  || N.eqb c 8287 || N.eqb c 12288 || N.eqb c 65279.

Fixpoint trimStart (s : t) : t :=
  match s with
  | [] => []
  | c :: s' => if isWhiteSpace c then trimStart s' else s
  end.

Definition trimEnd (s : t) : t := rev (trimStart (rev s)).

Definition trim (s : t) : t := trimEnd (trimStart s).

(** Truthiness of a string: only the empty string is falsy. *)
Definition truthy (s : t) : bool :=
  match s with [] => false | _ :: _ => true end.

(** Empty or made of white space only. *)
Definition blank (s : t) : bool := forallb isWhiteSpace s.

End JsString.

Definition jsstring : Type := JsString.t.

(** ** Data of the application *)

(** The fields of [SpeechSynthesisVoice] the component reads. *)
Record Voice : Type := mkVoice {
  voiceURI : jsstring;
  name : jsstring;
  lang : jsstring
}.

(** The React state of [App], one field per [useState]. *)
Record AppState : Type := mkApp {
  text : jsstring;
  voices : list Voice;
  selectedVoiceURI : jsstring;
  pitch : float;
  rate : float;
  isSpeaking : bool;
  isLoadingVoices : bool
}.

Definition setText (v : jsstring) (s : AppState) : AppState :=
  mkApp v (voices s) (selectedVoiceURI s) (pitch s) (rate s)
        (isSpeaking s) (isLoadingVoices s).

Definition setVoices (v : list Voice) (s : AppState) : AppState :=
  mkApp (text s) v (selectedVoiceURI s) (pitch s) (rate s)
        (isSpeaking s) (isLoadingVoices s).

Definition setSelectedVoiceURI (v : jsstring) (s : AppState) : AppState :=
  mkApp (text s) (voices s) v (pitch s) (rate s)
        (isSpeaking s) (isLoadingVoices s).

Definition setPitch (v : float) (s : AppState) : AppState :=
  mkApp (text s) (voices s) (selectedVoiceURI s) v (rate s)
        (isSpeaking s) (isLoadingVoices s).

Definition setRate (v : float) (s : AppState) : AppState :=
  mkApp (text s) (voices s) (selectedVoiceURI s) (pitch s) v
        (isSpeaking s) (isLoadingVoices s).

Definition setIsSpeaking (v : bool) (s : AppState) : AppState :=
  mkApp (text s) (voices s) (selectedVoiceURI s) (pitch s) (rate s)
        v (isLoadingVoices s).

Definition setIsLoadingVoices (v : bool) (s : AppState) : AppState :=
  mkApp (text s) (voices s) (selectedVoiceURI s) (pitch s) (rate s)
        (isSpeaking s) v.

(** The initial values given to [useState]. *)
Definition initialApp : AppState :=
  mkApp [] [] [] 1%float 1%float false true.

(** A [SpeechSynthesisUtterance] as [handleSpeak] fills it: the text,
    the voice ([None] is the [null] the constructor leaves, the platform
    default), pitch, rate, and the three callbacks, each a state update. *)
Record Utterance : Type := mkUtterance {
  u_text : jsstring;
  u_voice : option Voice;
  u_pitch : float;
  u_rate : float;
  onstart : AppState -> AppState;
  onend : AppState -> AppState;
  onerror : AppState -> AppState
}.

(** [new SpeechSynthesisUtterance(text)]: no voice, pitch and rate 1,
    no callback. *)
Definition newUtterance (t : jsstring) : Utterance :=
  mkUtterance t None 1%float 1%float (fun s => s) (fun s => s) (fun s => s).

(** The commands the application issues to the host engine. *)
Inductive Command : Type :=
| Cancel : Command
| Speak : Utterance -> Command.

(** What the [onvoiceschanged] slot holds when it is not [null]. *)
Inductive VoicesHandler : Type :=
| LoadVoices : VoicesHandler.

(** The application together with its side of the host engine. *)
Record World : Type := mkWorld {
  app : AppState;
  onvoiceschanged : option VoicesHandler;
  commands : list Command
}.

Definition initialWorld : World := mkWorld initialApp None [].

Definition update (f : AppState -> AppState) (w : World) : World :=
  mkWorld (f (app w)) (onvoiceschanged w) (commands w).

Definition setOnvoiceschanged (h : option VoicesHandler) (w : World) : World :=
  mkWorld (app w) h (commands w).

(** [window.speechSynthesis.cancel()] and [.speak(u)]. *)
Definition issue (c : Command) (w : World) : World :=
  mkWorld (app w) (onvoiceschanged w) (commands w ++ [c]).

(** ** The voice loader (the [useEffect] of [App]) *)

(** The locale the default voice is looked for in. *)
Definition preferredLang : jsstring := JsString.lit "en-US".

(** [availableVoices.find(v => v.lang === 'en-US') || availableVoices[0]]
    for a list whose first element is [first]: a voice object is always
    truthy, so the right operand is taken exactly when [find] finds
    nothing. *)
Definition defaultVoiceOf (first : Voice) (availableVoices : list Voice) : Voice :=
  match find (fun v => JsString.eqb (lang v) preferredLang) availableVoices with
  | Some v => v
  | None => first
  end.

(** [loadVoices], where [availableVoices] is what [getVoices()] returns
    at the time of the call. *)
Definition loadVoices (availableVoices : list Voice) (w : World) : World :=
  match availableVoices with
  | [] => w
  | first :: _ =>
      let w := update (setVoices availableVoices) w in
      let defaultVoice := defaultVoiceOf first availableVoices in
      let w := update (setSelectedVoiceURI (voiceURI defaultVoice)) w in
      let w := update (setIsLoadingVoices false) w in
      setOnvoiceschanged None w
  end.

(** The effect run once after the first render: attach the handler, then
    try at once. *)
Definition mount (availableVoices : list Voice) (w : World) : World :=
  let w := setOnvoiceschanged (Some LoadVoices) w in
  loadVoices availableVoices w.

(** The platform fires [voiceschanged]: the slot's handler runs, if any. *)
Definition voiceschanged (availableVoices : list Voice) (w : World) : World :=
  match onvoiceschanged w with
  | Some LoadVoices => loadVoices availableVoices w
  | None => w
  end.

(** ** The utterance controller *)

Definition withVoice (v : Voice) (u : Utterance) : Utterance :=
  mkUtterance (u_text u) (Some v) (u_pitch u) (u_rate u)
              (onstart u) (onend u) (onerror u).

Definition withPitch (p : float) (u : Utterance) : Utterance :=
  mkUtterance (u_text u) (u_voice u) p (u_rate u)
              (onstart u) (onend u) (onerror u).

Definition withRate (r : float) (u : Utterance) : Utterance :=
  mkUtterance (u_text u) (u_voice u) (u_pitch u) r
              (onstart u) (onend u) (onerror u).

Definition withCallbacks (st en er : AppState -> AppState) (u : Utterance)
  : Utterance :=
  mkUtterance (u_text u) (u_voice u) (u_pitch u) (u_rate u) st en er.

(** [voices.find(v => v.voiceURI === selectedVoiceURI)]. *)
Definition selectedVoiceOf (s : AppState) : option Voice :=
  find (fun v => JsString.eqb (voiceURI v) (selectedVoiceURI s)) (voices s).

(** The guard of [handleSpeak]: [!text.trim() || isSpeaking]. *)
Definition speakRefused (s : AppState) : bool :=
  negb (JsString.truthy (JsString.trim (text s))) || isSpeaking s.

(** The utterance [handleSpeak] builds from the state of the render its
    closure belongs to. *)
Definition utteranceOf (s : AppState) : Utterance :=
  let utterance := newUtterance (text s) in
  let utterance :=
    match selectedVoiceOf s with
    | Some selectedVoice => withVoice selectedVoice utterance
    | None => utterance
    end in
  let utterance := withPitch (pitch s) utterance in
  let utterance := withRate (rate s) utterance in
  withCallbacks (setIsSpeaking true) (setIsSpeaking false)
                (setIsSpeaking false) utterance.

Definition handleSpeak (w : World) : World :=
  if speakRefused (app w) then w
  else
    let w := issue Cancel w in
    issue (Speak (utteranceOf (app w))) w.

Definition handleStop (w : World) : World :=
  let w := issue Cancel w in
  update (setIsSpeaking false) w.

(** ** The form controls *)

(** The [min], [max] and [step] attributes given to a [ControlSlider]. *)
Record SliderProps : Type := mkSlider {
  s_min : float;
  s_max : float;
  s_step : float
}.

Definition pitchSlider : SliderProps := mkSlider 0.5%float 2%float 0.1%float.
Definition rateSlider : SliderProps := mkSlider 0.5%float 2%float 0.1%float.

(** [min <= v && v <= max]; false on [NaN]. *)
Definition inRange (p : SliderProps) (v : float) : bool :=
  (s_min p <=? v)%float && (v <=? s_max p)%float.

(** The values of the options [VoiceSelector] renders for the catalog
    (with an empty catalog its only option is disabled). *)
Definition voiceOptions (s : AppState) : list jsstring :=
  List.map voiceURI (voices s).

(** ** Sessions *)

(** What can happen after the component is mounted.  A change event
    carries the value its handler receives ([e.target.value], for the
    sliders after [parseFloat]); a callback event names the utterance by
    its rank among the submitted ones. *)
Inductive Event : Type :=
| VoicesChanged (availableVoices : list Voice)
| ChangeText (v : jsstring)
| ChangeVoice (v : jsstring)
| ChangePitch (v : float)
| ChangeRate (v : float)
| ClickSpeak
| ClickStop
| FireStart (k : nat)
| FireEnd (k : nat)
| FireError (k : nat).

(** The utterances handed to [speechSynthesis.speak], oldest first. *)
Fixpoint submitted (cs : list Command) : list Utterance :=
  match cs with
  | [] => []
  | Cancel :: cs' => submitted cs'
  | Speak u :: cs' => u :: submitted cs'
  end.

(** The engine runs one callback of the [k]-th submitted utterance. *)
Definition fire (cb : Utterance -> AppState -> AppState) (k : nat) (w : World)
  : World :=
  match nth_error (submitted (commands w)) k with
  | Some u => update (cb u) w
  | None => w
  end.

Definition step (e : Event) (w : World) : World :=
  match e with
  | VoicesChanged availableVoices => voiceschanged availableVoices w
  | ChangeText v => update (setText v) w
  | ChangeVoice v => update (setSelectedVoiceURI v) w
  | ChangePitch v => update (setPitch v) w
  | ChangeRate v => update (setRate v) w
  | ClickSpeak => handleSpeak w
  | ClickStop => handleStop w
  | FireStart k => fire onstart k w
  | FireEnd k => fire onend k w
  | FireError k => fire onerror k w
  end.

Fixpoint run (es : list Event) (w : World) : World :=
  match es with
  | [] => w
  | e :: es' => run es' (step e w)
  end.

(** A session: the component mounts while [getVoices()] returns
    [availableVoices], then the events happen in order. *)
Definition session (availableVoices : list Voice) (es : list Event) : World :=
  run es (mount availableVoices initialWorld).

(** ** What is rendered *)

(** The three icons of [components/icons], as the tag and the props they
    are rendered with. *)
Inductive Icon : Type :=
| SpeakerIcon (isSpeaking : bool)
| StopIcon
| LoadingSpinner (className : jsstring).

(** The default of [LoadingSpinner]'s [className] prop. *)
Definition defaultSpinnerClassName : jsstring :=
  JsString.lit "h-5 w-5 text-white".

(** The [className] of the [svg] element an icon renders. *)
Definition iconClassName (i : Icon) : jsstring :=
  match i with
  | SpeakerIcon isSpeaking =>
      JsString.lit "w-6 h-6 "
      ++ (if isSpeaking then JsString.lit "animate-pulse" else [])
  | StopIcon => JsString.lit "w-6 h-6"
  | LoadingSpinner className => JsString.lit "animate-spin " ++ className
  end.

(** [disabled] of the text area and of both sliders. *)
Definition textAreaDisabled (s : AppState) : bool := isSpeaking s.
Definition sliderDisabled (s : AppState) : bool := isSpeaking s.

(** An [option] element of the voice selector. *)
Record OptionElement : Type := mkOption {
  o_value : jsstring;
  o_disabled : bool;
  o_label : jsstring
}.

(** The children of the [select] of [VoiceSelector], from its props. *)
Definition selectorOptions (voices : list Voice) (isLoading : bool)
  : list OptionElement :=
  if Nat.ltb 0 (List.length voices) then
    List.map
      (fun voice =>
         mkOption (voiceURI voice) false
                  (name voice ++ JsString.lit " (" ++ lang voice
                   ++ JsString.lit ")"))
      voices
  else
    [mkOption [] true
              (if isLoading then JsString.lit "Loading voices..."
               else JsString.lit "No voices available")].

(** [disabled] of the [select] of [VoiceSelector], from its props. *)
Definition selectorDisabled (voices : list Voice) (isLoading isSpeaking : bool)
  : bool :=
  isLoading || isSpeaking || Nat.eqb (List.length voices) 0.

(** [VoiceSelector] with the props [App] passes. *)
Definition voiceSelectorOptions (s : AppState) : list OptionElement :=
  selectorOptions (voices s) (isLoadingVoices s).

Definition voiceSelectorDisabled (s : AppState) : bool :=
  selectorDisabled (voices s) (isLoadingVoices s) (isSpeaking s).

(** [disabled] of the Speak button:
    [!text.trim() || isLoadingVoices || !selectedVoiceURI]. *)
Definition speakButtonDisabled (s : AppState) : bool :=
  negb (JsString.truthy (JsString.trim (text s)))
  || isLoadingVoices s
  || negb (JsString.truthy (selectedVoiceURI s)).

Record Button : Type := mkButton {
  b_onClick : World -> World;
  b_disabled : bool;
  b_ariaLabel : jsstring;
  b_icon : Icon;
  b_label : jsstring
}.

(** The one button [App] renders: Stop while speaking, Speak otherwise. *)
Definition actionButton (s : AppState) : Button :=
  if isSpeaking s then
    mkButton handleStop false (JsString.lit "Stop speaking")
             StopIcon (JsString.lit "Stop")
  else
    mkButton handleSpeak (speakButtonDisabled s) (JsString.lit "Speak text")
             (if isLoadingVoices s
              then LoadingSpinner defaultSpinnerClassName
              else SpeakerIcon (isSpeaking s))
             (if isLoadingVoices s
              then JsString.lit "Loading..." else JsString.lit "Speak").

(** ** Sessions driven through the rendered controls *)

(** Whether the controls rendered for [s] can produce the event: a
    disabled control produces none, the selector produces the value of one
    of its enabled options, a slider a value between its [min] and [max],
    and a click goes to the button that is rendered.  The events of the
    host engine are not constrained. *)
Definition uiAllows (e : Event) (s : AppState) : bool :=
  match e with
  | VoicesChanged _ => true
  | ChangeText _ => negb (textAreaDisabled s)
  | ChangeVoice v =>
      negb (voiceSelectorDisabled s)
      && existsb (fun o => negb (o_disabled o) && JsString.eqb (o_value o) v)
                 (voiceSelectorOptions s)
  | ChangePitch v => negb (sliderDisabled s) && inRange pitchSlider v
  | ChangeRate v => negb (sliderDisabled s) && inRange rateSlider v
  | ClickSpeak => negb (isSpeaking s) && negb (b_disabled (actionButton s))
  | ClickStop => isSpeaking s && negb (b_disabled (actionButton s))
  | FireStart _ => true
  | FireEnd _ => true
  | FireError _ => true
  end.

(** Every event of [es] is allowed by the controls rendered when it
    happens. *)
Fixpoint uiDriven (es : list Event) (w : World) : bool :=
  match es with
  | [] => true
  | e :: es' => uiAllows e (app w) && uiDriven es' (step e w)
  end.

(** ** What the platform reported *)

(** The voice lists [getVoices()] returned at the [voiceschanged] events
    of a session, in order. *)
Fixpoint reportedVoices (es : list Event) : list (list Voice) :=
  match es with
  | [] => []
  | VoicesChanged availableVoices :: es' =>
      availableVoices :: reportedVoices es'
  | _ :: es' => reportedVoices es'
  end.

(** The first list that is not empty, the empty list when there is
    none. *)
Fixpoint firstNonEmpty (ls : list (list Voice)) : list Voice :=
  match ls with
  | [] => []
  | [] :: ls' => firstNonEmpty ls'
  | (v :: l) :: _ => v :: l
  end.

(** The loader is either still waiting (handler attached, flag up, no
    catalog) or done (handler detached, flag down, a catalog). *)
Definition loaderConsistent (w : World) : Prop :=
  (onvoiceschanged w = Some LoadVoices /\
   isLoadingVoices (app w) = true /\ voices (app w) = [])
  \/
  (onvoiceschanged w = None /\
   isLoadingVoices (app w) = false /\ voices (app w) <> []).

(** Every [speak] of [cs] comes right after a [cancel]; [afterCancel]
    tells whether a [cancel] comes right before [cs]. *)
Fixpoint cancelBeforeSpeak (afterCancel : bool) (cs : list Command) : bool :=
  match cs with
  | [] => true
  | Cancel :: cs' => cancelBeforeSpeak true cs'
  | Speak _ :: cs' => afterCancel && cancelBeforeSpeak false cs'
  end.

(** ** Predicates used in the statements *)

(** The callbacks [handleSpeak] assigns: none looks at the request it
    belongs to. *)
Definition wired (u : Utterance) : Prop :=
  onstart u = setIsSpeaking true /\
  onend u = setIsSpeaking false /\
  onerror u = setIsSpeaking false.

Definition allWired (w : World) : Prop :=
  Forall wired (submitted (commands w)).

(** With a non-empty catalog, the selection is the identifier of one of
    its voices. *)
Definition selectionInCatalog (s : AppState) : Prop :=
  voices s <> [] -> In (selectedVoiceURI s) (voiceOptions s).

(** Pitch and rate, in the state and in every utterance submitted, lie
    between the [min] and [max] of their sliders. *)
Definition rangeInvariant (w : World) : Prop :=
  inRange pitchSlider (pitch (app w)) = true /\
  inRange rateSlider (rate (app w)) = true /\
  forall u, In u (submitted (commands w)) ->
            inRange pitchSlider (u_pitch u) = true /\
            inRange rateSlider (u_rate u) = true.

(** What sessions driven through the controls keep: the loader is
    consistent, the selection is in the catalog, nothing was submitted
    while loading, the state is Speaking only once something was
    submitted, and every utterance submitted has a voice. *)
Definition uiInvariant (w : World) : Prop :=
  loaderConsistent w /\
  selectionInCatalog (app w) /\
  (submitted (commands w) <> [] -> isLoadingVoices (app w) = false) /\
  (isSpeaking (app w) = true -> submitted (commands w) <> []) /\
  forall u, In u (submitted (commands w)) -> exists v, u_voice u = Some v.

(** ** Concrete data for the examples *)

Definition v1 : Voice :=
  mkVoice (JsString.lit "v1") (JsString.lit "Voice one") (JsString.lit "en-US").
Definition v2 : Voice :=
  mkVoice (JsString.lit "v2") (JsString.lit "Voice two") (JsString.lit "fr-FR").
Definition v3 : Voice :=
  mkVoice (JsString.lit "v3") (JsString.lit "Voice three") (JsString.lit "de-DE").

(** Mounted with the catalog of the specification's scenario. *)
Definition mounted : World := session [v1; v2] [].

(** Text typed, Speak clicked, and the engine has announced the start. *)
Definition speakingTrace : list Event :=
  [ChangeText (JsString.lit "hello"); ClickSpeak; FireStart 0].

(** A selection that names no voice of the catalog, a pitch, a text. *)
Definition unknownVoiceTrace : list Event :=
  [ChangeVoice (JsString.lit "gone"); ChangePitch 1.5%float;
   ChangeText (JsString.lit "hello")].

(** Two requests, the second submitted before any callback of the first
    has run, and then the start of the second. *)
Definition supersedingTrace : list Event :=
  [ChangeText (JsString.lit "one"); ClickSpeak;
   ChangeText (JsString.lit "two"); ClickSpeak;
   FireStart 1].

Definition superseded : World := session [v1; v2] supersedingTrace.

(** ** Strings *)

Module JsStringFacts.
Import JsString.

Lemma eqb_eq (a b : t) : eqb a b = true <-> a = b.
Proof.
  revert b; induction a as [|x a IH]; intros [|y b]; simpl;
    try (split; [discriminate | discriminate]); try tauto.
  rewrite andb_true_iff, N.eqb_eq, IH.
  split; [intros [-> ->]; reflexivity | intros E; inversion E; auto].
Qed.

Lemma eqb_neq (a b : t) : eqb a b = false <-> a <> b.
Proof.
  rewrite <- eqb_eq. destruct (eqb a b); split; congruence.
Qed.

Lemma trimStart_nil_iff (s : t) : trimStart s = [] <-> blank s = true.
Proof.
  unfold blank; induction s as [|c s IH]; simpl; [tauto|].
  destruct (isWhiteSpace c); simpl; [exact IH | split; discriminate].
Qed.

(** What [trimStart] leaves does not start with white space. *)
Lemma trimStart_blank (s : t) : blank (trimStart s) = true -> trimStart s = [].
Proof.
  unfold blank; induction s as [|c s IH]; simpl; [reflexivity|].
  destruct (isWhiteSpace c) eqn:E; [exact IH|].
  simpl; rewrite E; discriminate.
Qed.

Lemma blank_rev (s : t) : blank (rev s) = blank s.
Proof.
  unfold blank; induction s as [|c s IH]; simpl; [reflexivity|].
  rewrite forallb_app, IH; simpl.
  rewrite andb_true_r; apply andb_comm.
Qed.

Lemma rev_nil_iff (s : t) : rev s = [] <-> s = [].
Proof.
  split; [|intros ->; reflexivity].
  intros E; apply (f_equal (@rev N)) in E.
  rewrite rev_involutive in E; exact E.
Qed.

(** [!s.trim()] holds exactly for the empty and the white-space-only
    strings. *)
Lemma trim_falsy_iff (s : t) : truthy (trim s) = false <-> blank s = true.
Proof.
  assert (T : forall x : t, truthy x = false <-> x = []).
  { intros [|? ?]; simpl; split; congruence. }
  rewrite T; unfold trim, trimEnd.
  rewrite rev_nil_iff, trimStart_nil_iff, blank_rev.
  split; intros H.
  - apply trimStart_nil_iff, trimStart_blank, H.
  - apply trimStart_nil_iff in H; rewrite H; reflexivity.
Qed.

End JsStringFacts.

(** ** The handlers, one at a time *)

Lemma speakRefused_iff (s : AppState) :
  speakRefused s = true <->
  JsString.blank (text s) = true \/ isSpeaking s = true.
Proof.
  unfold speakRefused.
  rewrite orb_true_iff, negb_true_iff, JsStringFacts.trim_falsy_iff; tauto.
Qed.

Lemma speakRefused_false (s : AppState) :
  JsString.blank (text s) = false -> isSpeaking s = false ->
  speakRefused s = false.
Proof.
  intros B I; destruct (speakRefused s) eqn:E; [|reflexivity].
  apply speakRefused_iff in E; destruct E; congruence.
Qed.

Lemma handleSpeak_accepted (w : World) :
  speakRefused (app w) = false ->
  handleSpeak w =
  mkWorld (app w) (onvoiceschanged w)
          ((commands w ++ [Cancel]) ++ [Speak (utteranceOf (app w))]).
Proof.
  intros E; unfold handleSpeak; rewrite E; reflexivity.
Qed.

Lemma handleSpeak_app (w : World) : app (handleSpeak w) = app w.
Proof.
  unfold handleSpeak; destruct (speakRefused (app w)); reflexivity.
Qed.

Lemma setIsSpeaking_same (s : AppState) : setIsSpeaking (isSpeaking s) s = s.
Proof. destruct s; reflexivity. Qed.

Lemma selectedVoiceOf_none (s : AppState) :
  (forall v, In v (voices s) -> voiceURI v <> selectedVoiceURI s) ->
  selectedVoiceOf s = None.
Proof.
  intros H; unfold selectedVoiceOf.
  destruct (find _ (voices s)) as [v|] eqn:F; [|reflexivity].
  apply find_some in F; destruct F as [I E].
  apply JsStringFacts.eqb_eq in E; destruct (H v I E).
Qed.

(** C1: when the text is empty or white space only, or the state is
    already Speaking, [handleSpeak] changes nothing: the React state (the
    Playback State and every parameter), the [onvoiceschanged] slot and the
    list of commands issued to the engine are what they were, so no
    command is issued and a pending session is left alone. *)
Theorem speak_refused_is_noop (w : World) :
  JsString.blank (text (app w)) = true \/ isSpeaking (app w) = true ->
  handleSpeak w = w.
Proof.
  intros H; apply speakRefused_iff in H.
  unfold handleSpeak; rewrite H; reflexivity.
Qed.

Lemma speak_refused_is_noop_witness :
  handleSpeak (step (ChangeText (JsString.lit "   ")) mounted)
  = step (ChangeText (JsString.lit "   ")) mounted.
Proof.
  apply (speak_refused_is_noop (step (ChangeText (JsString.lit "   ")) mounted)).
  left; reflexivity.
Defined.



(** C4: [handleStop] called while Speaking leaves the state Idle when it
    returns, without any callback of the engine having run, and appends
    exactly one cancel to the commands issued. *)
Theorem stop_while_speaking (w : World) :
  isSpeaking (app w) = true ->
  isSpeaking (app (handleStop w)) = false /\
  commands (handleStop w) = commands w ++ [Cancel].
Proof.
  intros _; split; reflexivity.
Qed.

Lemma stop_while_speaking_witness :
  isSpeaking (app (handleStop (session [v1; v2] speakingTrace))) = false /\
  commands (handleStop (session [v1; v2] speakingTrace))
  = commands (session [v1; v2] speakingTrace) ++ [Cancel].
Proof.
  apply (stop_while_speaking (session [v1; v2] speakingTrace)).
  reflexivity.
Defined.

(** C5, as the code has it: [handleStop] called while Idle changes no
    component of the React state (Playback State, text, catalog, voice
    selection, pitch, rate, loading flag) nor the [onvoiceschanged] slot,
    but it still issues one cancel to the engine: the handler has no
    guard. *)
Theorem stop_while_idle (w : World) :
  isSpeaking (app w) = false ->
  app (handleStop w) = app w /\
  onvoiceschanged (handleStop w) = onvoiceschanged w /\
  commands (handleStop w) = commands w ++ [Cancel].
Proof.
  intros I; repeat split.
  simpl; rewrite <- I; apply setIsSpeaking_same.
Qed.

Lemma stop_while_idle_witness :
  app (handleStop mounted) = app mounted /\
  onvoiceschanged (handleStop mounted) = onvoiceschanged mounted /\
  commands (handleStop mounted) = commands mounted ++ [Cancel].
Proof.
  apply (stop_while_idle mounted); reflexivity.
Defined.

(** C5, as stated, fails right after mounting: the state is Idle and
    [handleStop] issues a command. *)
Lemma stop_while_idle_issues_cancel :
  isSpeaking (app mounted) = false /\
  commands mounted = [] /\
  commands (handleStop mounted) = [Cancel] /\
  commands (handleStop mounted) <> commands mounted.
Proof.
  repeat split; discriminate.
Qed.

(** C10: when the call passes the guard (text neither empty nor white
    space only, state Idle) and no voice of the catalog has the selected
    identifier, the empty catalog included, [handleSpeak] still issues the
    cancel and submits the utterance, with the current text, pitch and
    rate and with no voice set. *)
Theorem unknown_voice_still_speaks (w : World) :
  isSpeaking (app w) = false ->
  JsString.blank (text (app w)) = false ->
  (forall v, In v (voices (app w)) -> voiceURI v <> selectedVoiceURI (app w)) ->
  exists u : Utterance,
    commands (handleSpeak w) = commands w ++ [Cancel; Speak u] /\
    u_voice u = None /\
    u_text u = text (app w) /\
    u_pitch u = pitch (app w) /\
    u_rate u = rate (app w).
Proof.
  intros I B U; exists (utteranceOf (app w)).
  rewrite (handleSpeak_accepted w (speakRefused_false _ B I)); simpl.
  rewrite <- app_assoc; simpl.
  unfold utteranceOf; rewrite (selectedVoiceOf_none _ U); simpl; auto.
Qed.

Lemma unknown_voice_still_speaks_witness :
  exists u : Utterance,
    commands (handleSpeak (run unknownVoiceTrace mounted))
    = commands (run unknownVoiceTrace mounted) ++ [Cancel; Speak u] /\
    u_voice u = None /\
    u_text u = JsString.lit "hello" /\
    u_pitch u = 1.5%float /\
    u_rate u = 1%float.
Proof.
  apply (unknown_voice_still_speaks (run unknownVoiceTrace mounted));
    try reflexivity.
  intros v [<-|[<-|[]]]; discriminate.
Defined.

(** ** The voice loader *)

Lemma find_first {A : Type} (f : A -> bool) (pre : list A) (v : A) (post : list A) :
  (forall x, In x pre -> f x = false) -> f v = true ->
  find f (pre ++ v :: post) = Some v.
Proof.
  intros N Y; induction pre as [|p pre IH]; simpl.
  - rewrite Y; reflexivity.
  - rewrite (N p (or_introl eq_refl)).
    apply IH; intros x I; apply N; right; exact I.
Qed.

Lemma find_nowhere {A : Type} (f : A -> bool) (l : list A) :
  (forall x, In x l -> f x = false) -> find f l = None.
Proof.
  intros N; induction l as [|a l IH]; simpl; [reflexivity|].
  rewrite (N a (or_introl eq_refl)).
  apply IH; intros x I; apply N; right; exact I.
Qed.

Lemma defaultVoiceOf_in (first : Voice) (rest : list Voice) :
  In (defaultVoiceOf first (first :: rest)) (first :: rest).
Proof.
  unfold defaultVoiceOf.
  destruct (find _ (first :: rest)) as [v|] eqn:F.
  - apply find_some in F; tauto.
  - left; reflexivity.
Qed.

Lemma loadVoices_commands (availableVoices : list Voice) (w : World) :
  commands (loadVoices availableVoices w) = commands w.
Proof. destruct availableVoices; reflexivity. Qed.

Lemma loadVoices_isSpeaking (availableVoices : list Voice) (w : World) :
  isSpeaking (app (loadVoices availableVoices w)) = isSpeaking (app w).
Proof. destruct availableVoices; reflexivity. Qed.

Lemma loadVoices_loaded (availableVoices : list Voice) (w : World) :
  isLoadingVoices (app w) = false ->
  isLoadingVoices (app (loadVoices availableVoices w)) = false.
Proof. destruct availableVoices; auto. Qed.

Lemma loadVoices_selection (availableVoices : list Voice) (w : World) :
  selectionInCatalog (app w) ->
  selectionInCatalog (app (loadVoices availableVoices w)).
Proof.
  destruct availableVoices as [|first rest]; [auto|].
  intros _ _; unfold voiceOptions; simpl.
  apply (in_map voiceURI (first :: rest)), defaultVoiceOf_in.
Qed.

(** C8: when [loadVoices] finds a non-empty list, it publishes it as the
    catalog and selects the first voice whose language tag is en-US (the
    voice before which no other has that tag) when there is one, and the
    first voice of the list otherwise; for the catalog v1 (en-US), v2
    (fr-FR), whatever the names of the voices, the selection is v1. *)
Theorem default_voice_selection (first : Voice) (rest : list Voice) (w : World) :
  let availableVoices := first :: rest in
  let w' := loadVoices availableVoices w in
  voices (app w') = availableVoices /\
  (forall pre v post,
      availableVoices = pre ++ v :: post ->
      (forall x, In x pre -> lang x <> preferredLang) ->
      lang v = preferredLang ->
      selectedVoiceURI (app w') = voiceURI v) /\
  ((forall x, In x availableVoices -> lang x <> preferredLang) ->
   selectedVoiceURI (app w') = voiceURI first) /\
  (forall n1 n2 : jsstring,
      selectedVoiceURI
        (app (mount [mkVoice (JsString.lit "v1") n1 (JsString.lit "en-US");
                     mkVoice (JsString.lit "v2") n2 (JsString.lit "fr-FR")]
                    initialWorld))
      = JsString.lit "v1").
Proof.
  cbv zeta; repeat split.
  - intros pre v post E N Y; simpl; unfold defaultVoiceOf.
    rewrite E, (find_first _ pre v post); [reflexivity| |].
    + intros x I; apply JsStringFacts.eqb_neq, N, I.
    + apply JsStringFacts.eqb_eq, Y.
  - intros N; simpl; unfold defaultVoiceOf.
    rewrite find_nowhere; [reflexivity|].
    intros x I; apply JsStringFacts.eqb_neq, N, I.
Qed.

Lemma default_voice_selection_witness :
  selectedVoiceURI (app (loadVoices [v2; v1; v3] initialWorld)) = voiceURI v1 /\
  selectedVoiceURI (app (loadVoices [v2; v3] initialWorld)) = voiceURI v2.
Proof.
  split.
  - apply (proj1 (proj2 (default_voice_selection v2 [v1; v3] initialWorld))
             [v2] v1 [v3]).
    + reflexivity.
    + intros x [<-|[]]; discriminate.
    + reflexivity.
  - apply (proj1 (proj2 (proj2 (default_voice_selection v2 [v3] initialWorld)))).
    intros x [<-|[<-|[]]]; discriminate.
Defined.

(** ** Sessions *)

Lemma run_app (es1 es2 : list Event) (w : World) :
  run (es1 ++ es2) w = run es2 (run es1 w).
Proof.
  revert w; induction es1 as [|e es1 IH]; intros w; simpl; [reflexivity|].
  apply IH.
Qed.

Lemma submitted_app (cs1 cs2 : list Command) :
  submitted (cs1 ++ cs2) = submitted cs1 ++ submitted cs2.
Proof.
  induction cs1 as [|[|u] cs1 IH]; simpl; [reflexivity|exact IH|].
  rewrite IH; reflexivity.
Qed.

Lemma utteranceOf_wired (s : AppState) : wired (utteranceOf s).
Proof. repeat split. Qed.

(** An event submits at most one utterance, the one [handleSpeak] builds. *)
Lemma step_submitted (e : Event) (w : World) :
  submitted (commands (step e w)) = submitted (commands w) \/
  submitted (commands (step e w))
  = submitted (commands w) ++ [utteranceOf (app w)].
Proof.
  destruct e; simpl; try (left; reflexivity).
  - left; unfold voiceschanged.
    destruct (onvoiceschanged w) as [[]|]; [|reflexivity].
    rewrite loadVoices_commands; reflexivity.
  - unfold handleSpeak; destruct (speakRefused (app w)); [left; reflexivity|].
    right; simpl; rewrite !submitted_app; simpl.
    rewrite app_nil_r; reflexivity.
  - left; rewrite submitted_app; simpl; apply app_nil_r.
  - left; unfold fire; destruct (nth_error _ k); reflexivity.
  - left; unfold fire; destruct (nth_error _ k); reflexivity.
  - left; unfold fire; destruct (nth_error _ k); reflexivity.
Qed.

Lemma step_allWired (e : Event) (w : World) :
  allWired w -> allWired (step e w).
Proof.
  unfold allWired; intros H.
  destruct (step_submitted e w) as [-> | ->]; [exact H|].
  apply Forall_app; split; [exact H|].
  constructor; [apply utteranceOf_wired | constructor].
Qed.

Lemma run_allWired (es : list Event) (w : World) :
  allWired w -> allWired (run es w).
Proof.
  revert w; induction es as [|e es IH]; intros w H; simpl; [exact H|].
  apply IH, step_allWired, H.
Qed.

Lemma mount_allWired (availableVoices : list Voice) :
  allWired (mount availableVoices initialWorld).
Proof.
  unfold allWired, mount; rewrite loadVoices_commands; constructor.
Qed.

Lemma session_allWired (availableVoices : list Voice) (es : list Event) :
  allWired (session availableVoices es).
Proof. apply run_allWired, mount_allWired. Qed.

Lemma allWired_nth (w : World) (k : nat) (u : Utterance) :
  allWired w -> nth_error (submitted (commands w)) k = Some u -> wired u.
Proof.
  unfold allWired; rewrite Forall_forall; intros H E.
  apply H, (nth_error_In _ _ E).
Qed.

(** Under [allWired], what a callback event does to the React state. *)
Lemma fire_wired (w : World) (k : nat) :
  allWired w ->
  match nth_error (submitted (commands w)) k with
  | Some _ =>
      app (fire onstart k w) = setIsSpeaking true (app w) /\
      app (fire onend k w) = setIsSpeaking false (app w) /\
      app (fire onerror k w) = setIsSpeaking false (app w)
  | None =>
      fire onstart k w = w /\ fire onend k w = w /\ fire onerror k w = w
  end.
Proof.
  intros H; unfold fire.
  destruct (nth_error _ k) as [u|] eqn:E; [|repeat split].
  destruct (allWired_nth w k u H E) as (-> & -> & ->).
  repeat split.
Qed.

(** Case analysis on a callback event: [F] is [fire_wired] at the world
    of the goal; the goal is rewritten with what the callback does, whether
    the utterance of rank [k] exists or not. *)
Ltac callback_cases F k :=
  let Rs := fresh "Rs" in
  let Re := fresh "Re" in
  let Rr := fresh "Rr" in
  specialize (F k); destruct (nth_error _ k);
  destruct F as (Rs & Re & Rr);
  try rewrite Rs; try rewrite Re; try rewrite Rr.

Lemma step_loaded (e : Event) (w : World) :
  allWired w ->
  isLoadingVoices (app w) = false ->
  isLoadingVoices (app (step e w)) = false.
Proof.
  intros W L; pose proof (fun k => fire_wired w k W) as F.
  destruct e; simpl; try exact L.
  - unfold voiceschanged; destruct (onvoiceschanged w) as [[]|]; [|exact L].
    apply loadVoices_loaded, L.
  - rewrite handleSpeak_app; exact L.
  - callback_cases F k; exact L.
  - callback_cases F k; exact L.
  - callback_cases F k; exact L.
Qed.

Lemma run_loaded (es : list Event) (w : World) :
  allWired w ->
  isLoadingVoices (app w) = false ->
  isLoadingVoices (app (run es w)) = false.
Proof.
  revert w; induction es as [|e es IH]; intros w W L; simpl; [exact L|].
  apply IH; [apply step_allWired, W | apply step_loaded; assumption].
Qed.

Lemma step_selection (e : Event) (w : World) :
  allWired w ->
  selectionInCatalog (app w) ->
  match e with
  | ChangeVoice v => In v (voiceOptions (app w))
  | _ => True
  end ->
  selectionInCatalog (app (step e w)).
Proof.
  intros W S O; pose proof (fun k => fire_wired w k W) as F.
  destruct e; simpl; try exact S.
  - unfold voiceschanged; destruct (onvoiceschanged w) as [[]|]; [|exact S].
    apply loadVoices_selection, S.
  - intros _; exact O.
  - rewrite handleSpeak_app; exact S.
  - callback_cases F k; exact S.
  - callback_cases F k; exact S.
  - callback_cases F k; exact S.
Qed.

Lemma mount_selection (availableVoices : list Voice) :
  selectionInCatalog (app (mount availableVoices initialWorld)).
Proof.
  unfold mount; apply loadVoices_selection.
  intros H; destruct H; reflexivity.
Qed.

(** C3: [handleSpeak] never touches the React state, so the Playback
    State is Idle when it returns if it was Idle before; and in a session,
    the only event that takes the Playback State from Idle to Speaking is
    the start callback of an utterance that was submitted. *)
Theorem speaking_only_on_start (availableVoices : list Voice) (es : list Event) :
  let w := session availableVoices es in
  (forall w0 : World, app (handleSpeak w0) = app w0) /\
  (isSpeaking (app w) = false ->
   isSpeaking (app (step ClickSpeak w)) = false) /\
  (forall e : Event,
      isSpeaking (app w) = false ->
      isSpeaking (app (step e w)) = true ->
      exists k u,
        e = FireStart k /\ nth_error (submitted (commands w)) k = Some u).
Proof.
  cbv zeta; split; [exact handleSpeak_app|].
  split; [simpl; rewrite handleSpeak_app; auto|].
  intros e I T.
  pose proof (fun k => fire_wired _ k (session_allWired availableVoices es)) as F.
  destruct e; simpl in T; try congruence.
  - unfold voiceschanged in T.
    destruct (onvoiceschanged _) as [[]|]; [|congruence].
    rewrite loadVoices_isSpeaking in T; congruence.
  - rewrite handleSpeak_app in T; congruence.
  - specialize (F k); destruct (nth_error _ k) as [u|] eqn:E.
    + exists k, u; split; [reflexivity | exact E].
    + destruct F as (R & _ & _); rewrite R in T; congruence.
  - specialize (F k); destruct (nth_error _ k).
    + destruct F as (_ & R & _); rewrite R in T; discriminate.
    + destruct F as (_ & R & _); rewrite R in T; congruence.
  - specialize (F k); destruct (nth_error _ k).
    + destruct F as (_ & _ & R); rewrite R in T; discriminate.
    + destruct F as (_ & _ & R); rewrite R in T; congruence.
Qed.

Lemma speaking_only_on_start_witness :
  isSpeaking
    (app (step ClickSpeak
               (session [v1; v2] [ChangeText (JsString.lit "hello")]))) = false /\
  exists k u,
    FireStart 0 = FireStart k /\
    nth_error
      (submitted
         (commands
            (session [v1; v2] [ChangeText (JsString.lit "hello"); ClickSpeak])))
      k = Some u.
Proof.
  split.
  - apply (proj1 (proj2 (speaking_only_on_start
                           [v1; v2] [ChangeText (JsString.lit "hello")]))).
    reflexivity.
  - apply (proj2 (proj2 (speaking_only_on_start
                           [v1; v2]
                           [ChangeText (JsString.lit "hello"); ClickSpeak]))
             (FireStart 0)); reflexivity.
Defined.

(** C6, as the code has it: the callbacks are not tagged with their
    request.  In a session, for every utterance that was submitted,
    superseded or not, its end and error callbacks set the Playback State
    to Idle and its start callback sets it to Speaking, whatever the state
    was and whichever request is the newest, and they change nothing
    else. *)
Theorem callbacks_ignore_their_request
  (availableVoices : list Voice) (es : list Event) (k : nat) (u : Utterance) :
  nth_error (submitted (commands (session availableVoices es))) k = Some u ->
  let w := session availableVoices es in
  step (FireStart k) w
  = mkWorld (setIsSpeaking true (app w)) (onvoiceschanged w) (commands w) /\
  step (FireEnd k) w
  = mkWorld (setIsSpeaking false (app w)) (onvoiceschanged w) (commands w) /\
  step (FireError k) w
  = mkWorld (setIsSpeaking false (app w)) (onvoiceschanged w) (commands w).
Proof.
  intros E w; subst w; simpl; unfold fire; rewrite E.
  destruct (allWired_nth _ k u (session_allWired availableVoices es) E)
    as (-> & -> & ->).
  repeat split.
Qed.

Lemma callbacks_ignore_their_request_witness :
  step (FireStart 0) superseded
  = mkWorld (setIsSpeaking true (app superseded))
            (onvoiceschanged superseded) (commands superseded) /\
  step (FireEnd 0) superseded
  = mkWorld (setIsSpeaking false (app superseded))
            (onvoiceschanged superseded) (commands superseded) /\
  step (FireError 0) superseded
  = mkWorld (setIsSpeaking false (app superseded))
            (onvoiceschanged superseded) (commands superseded).
Proof.
  apply (callbacks_ignore_their_request
           [v1; v2] supersedingTrace 0
           (utteranceOf (app (session [v1; v2]
                                      [ChangeText (JsString.lit "one")])))).
  reflexivity.
Defined.

(** C6, as stated, fails.  The second request is submitted before any
    callback of the first, and is announced started: the state is
    Speaking.  A late end or error of the first request then forces Idle
    while the second is Speaking; and once the second has ended, a late
    start of the first brings Speaking back. *)
Lemma stale_callbacks_change_state :
  List.map u_text (submitted (commands superseded))
  = [JsString.lit "one"; JsString.lit "two"] /\
  isSpeaking (app superseded) = true /\
  isSpeaking (app (step (FireEnd 0) superseded)) = false /\
  isSpeaking (app (step (FireError 0) superseded)) = false /\
  isSpeaking (app (step (FireEnd 1) superseded)) = false /\
  isSpeaking (app (run [FireEnd 1; FireStart 0] superseded)) = true.
Proof.
  repeat split.
Qed.

(** ** The loader over a session *)

(** An induction principle for sessions: what holds after mounting and
    is kept by every event, on worlds whose utterances are wired, holds
    throughout. *)
Lemma session_invariant (Inv : World -> Prop) (availableVoices : list Voice) :
  Inv (mount availableVoices initialWorld) ->
  (forall e w, allWired w -> Inv w -> Inv (step e w)) ->
  forall es, Inv (session availableVoices es).
Proof.
  intros I0 IS es; unfold session.
  pose proof (mount_allWired availableVoices) as W.
  revert I0 W; generalize (mount availableVoices initialWorld).
  induction es as [|e es IH]; intros w I W; simpl; [exact I|].
  apply IH; [apply IS; assumption | apply step_allWired, W].
Qed.

(** The same for sessions driven through the rendered controls. *)
Lemma ui_session_invariant (Inv : World -> Prop) (availableVoices : list Voice) :
  Inv (mount availableVoices initialWorld) ->
  (forall e w,
      allWired w -> Inv w -> uiAllows e (app w) = true -> Inv (step e w)) ->
  forall es,
    uiDriven es (mount availableVoices initialWorld) = true ->
    Inv (session availableVoices es).
Proof.
  intros I0 IS es; unfold session.
  pose proof (mount_allWired availableVoices) as W.
  revert I0 W; generalize (mount availableVoices initialWorld).
  induction es as [|e es IH]; intros w I W U; simpl; [exact I|].
  simpl in U; apply andb_true_iff in U; destruct U as [U1 U2].
  apply IH; [apply IS; assumption | apply step_allWired, W | exact U2].
Qed.

(** A callback touches neither the slot nor the commands. *)
Lemma fire_frame (cb : Utterance -> AppState -> AppState) (k : nat) (w : World) :
  onvoiceschanged (fire cb k w) = onvoiceschanged w /\
  commands (fire cb k w) = commands w.
Proof.
  unfold fire; destruct (nth_error _ k); split; reflexivity.
Qed.

(** Only [voiceschanged] touches the catalog, the flag and the slot. *)
Lemma step_loader_frame (e : Event) (w : World) :
  allWired w ->
  (forall availableVoices, e <> VoicesChanged availableVoices) ->
  voices (app (step e w)) = voices (app w) /\
  isLoadingVoices (app (step e w)) = isLoadingVoices (app w) /\
  onvoiceschanged (step e w) = onvoiceschanged w.
Proof.
  intros W N; pose proof (fun k => fire_wired w k W) as F.
  destruct e; simpl; try (repeat split; fail).
  - destruct (N availableVoices eq_refl).
  - rewrite handleSpeak_app; unfold handleSpeak.
    destruct (speakRefused (app w)); repeat split.
  - rewrite (proj1 (fire_frame onstart k w)).
    callback_cases F k; repeat split.
  - rewrite (proj1 (fire_frame onend k w)).
    callback_cases F k; repeat split.
  - rewrite (proj1 (fire_frame onerror k w)).
    callback_cases F k; repeat split.
Qed.

Lemma loadVoices_loaderConsistent (availableVoices : list Voice) (w : World) :
  loaderConsistent w -> loaderConsistent (loadVoices availableVoices w).
Proof.
  destruct availableVoices as [|first rest]; [auto|].
  intros _; right; simpl; repeat split; discriminate.
Qed.

Lemma step_loaderConsistent (e : Event) (w : World) :
  allWired w -> loaderConsistent w -> loaderConsistent (step e w).
Proof.
  intros W L.
  assert (D : (exists a, e = VoicesChanged a) \/
              (forall a, e <> VoicesChanged a)).
  { destruct e; try (right; intros a; discriminate).
    left; eexists; reflexivity. }
  destruct D as [[a ->] | N].
  - simpl; unfold voiceschanged.
    destruct (onvoiceschanged w) as [[]|] eqn:E.
    + apply loadVoices_loaderConsistent, L.
    + exact L.
  - destruct (step_loader_frame e w W N) as (Ev & El & Eo).
    unfold loaderConsistent; rewrite Ev, El, Eo; exact L.
Qed.

Lemma mount_loaderConsistent (availableVoices : list Voice) :
  loaderConsistent (mount availableVoices initialWorld).
Proof.
  unfold mount; apply loadVoices_loaderConsistent.
  left; repeat split.
Qed.

Lemma session_loaderConsistent (availableVoices : list Voice) (es : list Event) :
  loaderConsistent (session availableVoices es).
Proof.
  apply session_invariant;
    [apply mount_loaderConsistent | exact step_loaderConsistent].
Qed.

(** X1: throughout a session the loading flag, the catalog and the
    [voiceschanged] subscription agree: the flag is up exactly when the
    catalog is empty, and exactly when [loadVoices] is still attached to
    [onvoiceschanged]. *)
Theorem loader_flag_catalog_handler
  (availableVoices : list Voice) (es : list Event) :
  let w := session availableVoices es in
  (isLoadingVoices (app w) = true <-> voices (app w) = []) /\
  (isLoadingVoices (app w) = true <-> onvoiceschanged w = Some LoadVoices) /\
  (isLoadingVoices (app w) = false <-> onvoiceschanged w = None).
Proof.
  cbv zeta.
  destruct (session_loaderConsistent availableVoices es)
    as [(Eo & El & Ev) | (Eo & El & Ev)];
    rewrite Eo, El; repeat split; intros; congruence.
Qed.

Lemma run_catalog (es : list Event) (w : World) :
  allWired w -> loaderConsistent w ->
  voices (app (run es w))
  = match voices (app w) with
    | [] => firstNonEmpty (reportedVoices es)
    | v :: l => v :: l
    end.
Proof.
  revert w; induction es as [|e es IH]; intros w W L; simpl.
  - destruct (voices (app w)); reflexivity.
  - rewrite (IH _ (step_allWired e w W) (step_loaderConsistent e w W L)).
    assert (D : (exists a, e = VoicesChanged a) \/
                (forall a, e <> VoicesChanged a)).
    { destruct e; try (right; intros a; discriminate).
      left; eexists; reflexivity. }
    destruct D as [[a ->] | N].
    + simpl; unfold voiceschanged.
      destruct L as [(Eo & El & Ev) | (Eo & El & Ev)]; rewrite Eo.
      * rewrite Ev; destruct a as [|v l]; simpl; [rewrite Ev|]; reflexivity.
      * destruct (voices (app w)); [congruence | reflexivity].
    + destruct (step_loader_frame e w W N) as (-> & _ & _).
      destruct e; try reflexivity.
      destruct (N availableVoices eq_refl).
Qed.

(** X2: the catalog of a session is the first non-empty list the
    platform reported, at mounting or at a later [voiceschanged] event; it
    is empty as long as every list reported was, and later lists are
    ignored. *)
Theorem catalog_is_first_reported
  (availableVoices : list Voice) (es : list Event) :
  voices (app (session availableVoices es))
  = firstNonEmpty (availableVoices :: reportedVoices es).
Proof.
  unfold session.
  rewrite (run_catalog es _ (mount_allWired availableVoices)
                       (mount_loaderConsistent availableVoices)).
  destruct availableVoices; reflexivity.
Qed.

(** X3: in a session the voice selector never shows its No voices
    available placeholder.  While the catalog is empty its only option is
    the disabled placeholder that reads Loading voices..., however long the
    platform reports no voice; and the test on the length of the catalog in
    its [disabled] attribute adds nothing to the loading flag. *)
Theorem no_voices_placeholder_never_shown
  (availableVoices : list Voice) (es : list Event) :
  let s := app (session availableVoices es) in
  (voices s = [] ->
   voiceSelectorOptions s
   = [mkOption [] true (JsString.lit "Loading voices...")]) /\
  voiceSelectorOptions s
  <> [mkOption [] true (JsString.lit "No voices available")] /\
  voiceSelectorDisabled s = isLoadingVoices s || isSpeaking s.
Proof.
  cbv zeta; unfold voiceSelectorOptions, voiceSelectorDisabled.
  unfold selectorOptions, selectorDisabled.
  destruct (session_loaderConsistent availableVoices es)
    as [(_ & El & Ev) | (_ & El & Ev)]; rewrite El.
  - rewrite Ev; simpl; repeat split; discriminate.
  - destruct (voices (app (session availableVoices es))) as [|v l];
      [congruence|].
    simpl; repeat split; try discriminate.
    rewrite orb_false_r; reflexivity.
Qed.

Lemma no_voices_placeholder_never_shown_witness :
  voiceSelectorOptions (app (session [] [VoicesChanged []; ClickStop]))
  = [mkOption [] true (JsString.lit "Loading voices...")].
Proof.
  apply (proj1 (no_voices_placeholder_never_shown
                  [] [VoicesChanged []; ClickStop])).
  reflexivity.
Defined.

(** ** The commands issued over a session *)

Lemma cancelBeforeSpeak_cancel (b : bool) (cs : list Command) :
  cancelBeforeSpeak b (cs ++ [Cancel]) = cancelBeforeSpeak b cs.
Proof.
  revert b; induction cs as [|[|u] cs IH]; intros b; simpl;
    [reflexivity | apply IH | rewrite IH; reflexivity].
Qed.

Lemma cancelBeforeSpeak_cancel_speak (b : bool) (cs : list Command) (u : Utterance) :
  cancelBeforeSpeak b (cs ++ [Cancel; Speak u]) = cancelBeforeSpeak b cs.
Proof.
  revert b; induction cs as [|[|u'] cs IH]; intros b; simpl;
    [reflexivity | apply IH | rewrite IH; reflexivity].
Qed.

(** What the boolean check says about each [speak] of the list. *)
Lemma cancelBeforeSpeak_split (b : bool) (pre post : list Command) (u : Utterance) :
  cancelBeforeSpeak b (pre ++ Speak u :: post) = true ->
  (pre = [] /\ b = true) \/ exists pre', pre = pre' ++ [Cancel].
Proof.
  revert b; induction pre as [|c pre IH]; intros b H; simpl in H.
  - left; split; [reflexivity|].
    apply andb_true_iff in H; tauto.
  - right; destruct c as [|u'].
    + destruct (IH true H) as [[-> _] | [p ->]].
      * exists []; reflexivity.
      * exists (Cancel :: p); reflexivity.
    + apply andb_true_iff in H; destruct H as [_ H].
      destruct (IH false H) as [[_ E] | [p ->]]; [discriminate|].
      exists (Speak u' :: p); reflexivity.
Qed.

(** What an event adds to the commands. *)
Lemma step_commands (e : Event) (w : World) :
  commands (step e w) = commands w \/
  (e = ClickStop /\ commands (step e w) = commands w ++ [Cancel]) \/
  (e = ClickSpeak /\ speakRefused (app w) = false /\
   commands (step e w) = commands w ++ [Cancel; Speak (utteranceOf (app w))]).
Proof.
  destruct e; simpl; try (left; reflexivity).
  - left; unfold voiceschanged.
    destruct (onvoiceschanged w) as [[]|]; [|reflexivity].
    apply loadVoices_commands.
  - unfold handleSpeak; destruct (speakRefused (app w)) eqn:E;
      [left; reflexivity|].
    right; right; simpl; rewrite <- app_assoc; auto.
  - right; left; split; reflexivity.
  - left; apply fire_frame.
  - left; apply fire_frame.
  - left; apply fire_frame.
Qed.

Lemma step_cancelBeforeSpeak (e : Event) (w : World) :
  cancelBeforeSpeak false (commands w) = true ->
  cancelBeforeSpeak false (commands (step e w)) = true.
Proof.
  intros H; destruct (step_commands e w) as [-> | [(_ & ->) | (_ & _ & ->)]].
  - exact H.
  - rewrite cancelBeforeSpeak_cancel; exact H.
  - rewrite cancelBeforeSpeak_cancel_speak; exact H.
Qed.

(** X4: in the commands a session issues to the engine, every [speak]
    comes right after a [cancel]: no utterance is ever queued behind
    another one. *)
Theorem speak_always_after_cancel
  (availableVoices : list Voice) (es : list Event)
  (pre post : list Command) (u : Utterance) :
  commands (session availableVoices es) = pre ++ Speak u :: post ->
  exists pre', pre = pre' ++ [Cancel].
Proof.
  intros E.
  assert (H : cancelBeforeSpeak false (commands (session availableVoices es))
              = true).
  { apply (session_invariant
             (fun w => cancelBeforeSpeak false (commands w) = true)).
    - unfold mount; rewrite loadVoices_commands; reflexivity.
    - intros e w _; apply step_cancelBeforeSpeak. }
  rewrite E in H.
  destruct (cancelBeforeSpeak_split _ _ _ _ H) as [[_ F] | P];
    [discriminate | exact P].
Qed.

Lemma speak_always_after_cancel_witness :
  exists pre',
    [Cancel; Speak (utteranceOf (app (session [v1; v2]
                                              [ChangeText (JsString.lit "one")])));
     Cancel]
    = pre' ++ [Cancel].
Proof.
  apply (speak_always_after_cancel
           [v1; v2] supersedingTrace _ []
           (utteranceOf
              (app (session [v1; v2]
                            [ChangeText (JsString.lit "one"); ClickSpeak;
                             ChangeText (JsString.lit "two")])))).
  reflexivity.
Defined.

(** What an event adds to the utterances submitted. *)
Lemma step_submitted_cases (e : Event) (w : World) :
  submitted (commands (step e w)) = submitted (commands w) \/
  (e = ClickSpeak /\ speakRefused (app w) = false /\
   submitted (commands (step e w))
   = submitted (commands w) ++ [utteranceOf (app w)]).
Proof.
  destruct (step_commands e w) as [-> | [(_ & ->) | (E & R & ->)]].
  - left; reflexivity.
  - left; rewrite submitted_app; apply app_nil_r.
  - right; repeat split; [exact E | exact R |].
    rewrite submitted_app; reflexivity.
Qed.

Lemma utteranceOf_fields (s : AppState) :
  u_text (utteranceOf s) = text s /\
  u_voice (utteranceOf s) = selectedVoiceOf s /\
  u_pitch (utteranceOf s) = pitch s /\
  u_rate (utteranceOf s) = rate s.
Proof.
  unfold utteranceOf; destruct (selectedVoiceOf s); repeat split.
Qed.

(** X5: no utterance a session submits has an empty or white-space-only
    text, although the text is handed over as typed, not trimmed. *)
Theorem submitted_text_never_blank
  (availableVoices : list Voice) (es : list Event) (u : Utterance) :
  In u (submitted (commands (session availableVoices es))) ->
  JsString.blank (u_text u) = false.
Proof.
  revert u; apply session_invariant with
    (Inv := fun w => forall u, In u (submitted (commands w)) ->
                               JsString.blank (u_text u) = false).
  - unfold mount; rewrite loadVoices_commands; intros u [].
  - intros e w _ I u.
    destruct (step_submitted_cases e w) as [-> | (_ & R & ->)]; [apply I|].
    rewrite in_app_iff; intros [H | [<- | []]]; [apply I, H|].
    rewrite (proj1 (utteranceOf_fields (app w))).
    destruct (JsString.blank (text (app w))) eqn:B; [|reflexivity].
    rewrite (proj2 (speakRefused_iff (app w)) (or_introl B)) in R.
    discriminate.
Qed.

Lemma submitted_text_never_blank_witness :
  JsString.blank (JsString.lit " two ") = false.
Proof.
  apply (submitted_text_never_blank
           [v1; v2]
           [ChangeText (JsString.lit "one"); ClickSpeak;
            ChangeText (JsString.lit " two "); ClickSpeak]
           (utteranceOf
              (app (session [v1; v2] [ChangeText (JsString.lit " two ")])))).
  right; left; reflexivity.
Defined.

(** X6: the voice of an utterance a session submitted, when it has one,
    is a voice of the catalog, at the time of the submission and at any
    later time: the catalog an utterance was built from is never
    replaced. *)
Theorem submitted_voice_from_catalog
  (availableVoices : list Voice) (es : list Event) (u : Utterance) (v : Voice) :
  In u (submitted (commands (session availableVoices es))) ->
  u_voice u = Some v ->
  In v (voices (app (session availableVoices es))).
Proof.
  revert u v.
  assert (H : loaderConsistent (session availableVoices es) /\
              forall u v,
                In u (submitted (commands (session availableVoices es))) ->
                u_voice u = Some v ->
                In v (voices (app (session availableVoices es)))).
  { apply session_invariant with
      (Inv := fun w => loaderConsistent w /\
                       forall u v, In u (submitted (commands w)) ->
                                   u_voice u = Some v ->
                                   In v (voices (app w))).
    - split; [apply mount_loaderConsistent|].
      unfold mount; rewrite loadVoices_commands; intros u v [].
    - intros e w W [L I]; split; [apply step_loaderConsistent; assumption|].
      assert (D : (exists a, e = VoicesChanged a) \/
                  (forall a, e <> VoicesChanged a)).
      { destruct e; try (right; intros a; discriminate).
        left; eexists; reflexivity. }
      destruct D as [[a ->] | N].
      + simpl; unfold voiceschanged.
        destruct (onvoiceschanged w) as [[]|] eqn:E; [|exact I].
        rewrite loadVoices_commands; intros u v Hu Hv.
        destruct L as [(_ & _ & Ev) | (Eo & _)]; [|congruence].
        specialize (I u v Hu Hv); rewrite Ev in I; destruct I.
      + destruct (step_loader_frame e w W N) as (-> & _ & _).
        destruct (step_submitted_cases e w) as [-> | (_ & _ & ->)];
          [exact I|].
        intros u v; rewrite in_app_iff; intros [Hu | [<- | []]] Hv;
          [apply (I u v Hu Hv)|].
        rewrite (proj1 (proj2 (utteranceOf_fields (app w)))) in Hv.
        apply find_some in Hv; tauto. }
  exact (proj2 H).
Qed.

Lemma submitted_voice_from_catalog_witness :
  In v2 (voices (app (session [v1; v2]
                              (ChangeVoice (JsString.lit "v2") :: speakingTrace)))).
Proof.
  apply (submitted_voice_from_catalog
           [v1; v2] (ChangeVoice (JsString.lit "v2") :: speakingTrace)
           (utteranceOf
              (app (session [v1; v2]
                            [ChangeVoice (JsString.lit "v2");
                             ChangeText (JsString.lit "hello")])))
           v2).
  - left; reflexivity.
  - reflexivity.
Defined.

(** ** Sessions driven through the rendered controls *)

Lemma uiDriven_app (es1 es2 : list Event) (w : World) :
  uiDriven (es1 ++ es2) w = uiDriven es1 w && uiDriven es2 (run es1 w).
Proof.
  revert w; induction es1 as [|e es1 IH]; intros w; simpl; [reflexivity|].
  rewrite IH, andb_assoc; reflexivity.
Qed.

Lemma loadVoices_params (availableVoices : list Voice) (w : World) :
  text (app (loadVoices availableVoices w)) = text (app w) /\
  pitch (app (loadVoices availableVoices w)) = pitch (app w) /\
  rate (app (loadVoices availableVoices w)) = rate (app w).
Proof. destruct availableVoices; repeat split. Qed.

(** How each event changes the text, the pitch and the rate. *)
Lemma step_params (e : Event) (w : World) :
  allWired w ->
  text (app (step e w))
  = match e with ChangeText v => v | _ => text (app w) end /\
  pitch (app (step e w))
  = match e with ChangePitch v => v | _ => pitch (app w) end /\
  rate (app (step e w))
  = match e with ChangeRate v => v | _ => rate (app w) end.
Proof.
  intros W; pose proof (fun k => fire_wired w k W) as F.
  destruct e; simpl; try (repeat split; fail).
  - unfold voiceschanged; destruct (onvoiceschanged w) as [[]|];
      [apply loadVoices_params | repeat split].
  - rewrite handleSpeak_app; repeat split.
  - callback_cases F k; repeat split.
  - callback_cases F k; repeat split.
  - callback_cases F k; repeat split.
Qed.

(** How each event changes the selection, [voiceschanged] apart. *)
Lemma step_selected (e : Event) (w : World) :
  allWired w ->
  (forall a, e <> VoicesChanged a) ->
  selectedVoiceURI (app (step e w))
  = match e with ChangeVoice v => v | _ => selectedVoiceURI (app w) end.
Proof.
  intros W N; pose proof (fun k => fire_wired w k W) as F.
  destruct e; simpl; try reflexivity.
  - destruct (N availableVoices eq_refl).
  - rewrite handleSpeak_app; reflexivity.
  - callback_cases F k; reflexivity.
  - callback_cases F k; reflexivity.
  - callback_cases F k; reflexivity.
Qed.

(** How each event changes the Playback State. *)
Lemma step_isSpeaking (e : Event) (w : World) :
  allWired w ->
  isSpeaking (app (step e w))
  = match e with
    | ClickStop => false
    | FireStart k =>
        match nth_error (submitted (commands w)) k with
        | Some _ => true
        | None => isSpeaking (app w)
        end
    | FireEnd k | FireError k =>
        match nth_error (submitted (commands w)) k with
        | Some _ => false
        | None => isSpeaking (app w)
        end
    | _ => isSpeaking (app w)
    end.
Proof.
  intros W; pose proof (fun k => fire_wired w k W) as F.
  destruct e; simpl; try reflexivity.
  - unfold voiceschanged; destruct (onvoiceschanged w) as [[]|];
      [apply loadVoices_isSpeaking | reflexivity].
  - rewrite handleSpeak_app; reflexivity.
  - callback_cases F k; reflexivity.
  - callback_cases F k; reflexivity.
  - callback_cases F k; reflexivity.
Qed.

Lemma step_rangeInvariant (e : Event) (w : World) :
  allWired w -> rangeInvariant w -> uiAllows e (app w) = true ->
  rangeInvariant (step e w).
Proof.
  intros W (P & R & U) A.
  destruct (step_params e w W) as (_ & Ep & Er).
  unfold rangeInvariant; rewrite Ep, Er; repeat split.
  - destruct e; try exact P.
    simpl in A; apply andb_true_iff in A; tauto.
  - destruct e; try exact R.
    simpl in A; apply andb_true_iff in A; tauto.
  - destruct (step_submitted_cases e w) as [E | (_ & _ & E)];
      rewrite E in H; [apply (U u H)|].
    apply in_app_iff in H; destruct H as [H | [<- | []]]; [apply (U u H)|].
    destruct (utteranceOf_fields (app w)) as (_ & _ & -> & _); exact P.
  - destruct (step_submitted_cases e w) as [E | (_ & _ & E)];
      rewrite E in H; [apply (U u H)|].
    apply in_app_iff in H; destruct H as [H | [<- | []]]; [apply (U u H)|].
    destruct (utteranceOf_fields (app w)) as (_ & _ & _ & ->); exact R.
Qed.

Lemma mount_rangeInvariant (availableVoices : list Voice) :
  rangeInvariant (mount availableVoices initialWorld).
Proof.
  unfold rangeInvariant, mount.
  rewrite loadVoices_commands.
  destruct (loadVoices_params availableVoices
              (setOnvoiceschanged (Some LoadVoices) initialWorld))
    as (_ & -> & ->).
  repeat split; destruct H.
Qed.



(** X7: in a session in which every slider event carries a value
    between the slider's [min] and [max] (and every other event is one the
    rendered controls allow), pitch and rate stay within [0.5, 2], in the
    state and in every utterance submitted to the engine. *)
Theorem ui_pitch_rate_in_range
  (availableVoices : list Voice) (es : list Event) :
  uiDriven es (mount availableVoices initialWorld) = true ->
  let w := session availableVoices es in
  inRange pitchSlider (pitch (app w)) = true /\
  inRange rateSlider (rate (app w)) = true /\
  forall u, In u (submitted (commands w)) ->
            inRange pitchSlider (u_pitch u) = true /\
            inRange rateSlider (u_rate u) = true.
Proof.
  intros U w; subst w.
  apply (ui_session_invariant rangeInvariant);
    [apply mount_rangeInvariant | exact step_rangeInvariant | exact U].
Qed.

Lemma ui_pitch_rate_in_range_witness :
  inRange pitchSlider 1.5%float = true /\
  inRange rateSlider 1%float = true /\
  forall u,
    In u (submitted
            (commands
               (session [v1; v2]
                        [ChangePitch 1.5%float;
                         ChangeText (JsString.lit "hello"); ClickSpeak]))) ->
    inRange pitchSlider (u_pitch u) = true /\
    inRange rateSlider (u_rate u) = true.
Proof.
  apply (ui_pitch_rate_in_range
           [v1; v2]
           [ChangePitch 1.5%float; ChangeText (JsString.lit "hello");
            ClickSpeak]).
  reflexivity.
Defined.

(** The selector only produces identifiers of the catalog. *)
Lemma uiAllows_changeVoice (v : jsstring) (s : AppState) :
  uiAllows (ChangeVoice v) s = true -> In v (voiceOptions s).
Proof.
  simpl; unfold voiceSelectorOptions, selectorOptions, voiceOptions.
  intros A; apply andb_true_iff in A; destruct A as [_ A].
  apply existsb_exists in A; destruct A as (o & I & A).
  apply andb_true_iff in A; destruct A as [D A].
  apply JsStringFacts.eqb_eq in A; subst v.
  destruct (Nat.ltb 0 (List.length (voices s))).
  - apply in_map_iff in I; destruct I as (x & <- & I).
    simpl; apply in_map, I.
  - destruct I as [<- | []]; discriminate.
Qed.

(** An enabled Speak button means the guard of [handleSpeak] passes and
    the loader is done. *)
Lemma uiAllows_clickSpeak (s : AppState) :
  uiAllows ClickSpeak s = true ->
  speakRefused s = false /\ isLoadingVoices s = false /\
  isSpeaking s = false.
Proof.
  simpl; unfold actionButton, speakRefused, speakButtonDisabled.
  destruct (isSpeaking s); simpl; [discriminate|].
  destruct (JsString.truthy (JsString.trim (text s))); simpl;
    [|discriminate].
  destruct (isLoadingVoices s); simpl; [discriminate|].
  repeat split.
Qed.

Lemma selectedVoiceOf_some (s : AppState) :
  In (selectedVoiceURI s) (voiceOptions s) ->
  exists v, selectedVoiceOf s = Some v.
Proof.
  unfold voiceOptions, selectedVoiceOf; intros I.
  apply in_map_iff in I; destruct I as (x & E & I).
  destruct (find _ (voices s)) as [v|] eqn:F; [exists v; reflexivity|].
  pose proof (find_none _ _ F x I) as N; simpl in N.
  apply JsStringFacts.eqb_neq in N; destruct (N E).
Qed.

Lemma step_uiInvariant (e : Event) (w : World) :
  allWired w -> uiInvariant w -> uiAllows e (app w) = true ->
  uiInvariant (step e w).
Proof.
  intros W (L & S & NL & SP & V) A.
  pose proof (step_isSpeaking e w W) as ES.
  assert (L' : loaderConsistent (step e w))
    by (apply step_loaderConsistent; assumption).
  assert (S' : selectionInCatalog (app (step e w))).
  { apply step_selection; try assumption.
    destruct e; try exact I.
    apply uiAllows_changeVoice, A. }
  unfold uiInvariant; repeat split; try assumption.
  - (* nothing submitted while loading *)
    destruct (step_submitted_cases e w) as [E | (-> & _ & _)].
    + rewrite E; intros N; apply step_loaded; auto.
    + intros _; simpl; rewrite handleSpeak_app.
      apply (uiAllows_clickSpeak _ A).
  - (* Speaking only once something was submitted *)
    destruct (step_submitted_cases e w) as [E | (_ & _ & E)]; rewrite E;
      [|intros _ C; apply app_eq_nil in C; destruct C; discriminate].
    rewrite ES; destruct e; try exact SP; try discriminate.
    + destruct (nth_error _ k) eqn:N; [|exact SP].
      intros _ C; rewrite C in N; destruct k; discriminate.
    + destruct (nth_error _ k); [discriminate | exact SP].
    + destruct (nth_error _ k); [discriminate | exact SP].
  - (* every utterance has a voice *)
    intros u; destruct (step_submitted_cases e w) as [E | (-> & _ & E)];
      rewrite E; [apply V|].
    rewrite in_app_iff; intros [H | [<- | []]]; [apply V, H|].
    destruct (utteranceOf_fields (app w)) as (_ & -> & _).
    apply selectedVoiceOf_some, S.
    destruct (uiAllows_clickSpeak _ A) as (_ & El & _).
    destruct L as [(_ & C & _) | (_ & _ & Ev)]; [congruence | exact Ev].
Qed.

Lemma mount_uiInvariant (availableVoices : list Voice) :
  uiInvariant (mount availableVoices initialWorld).
Proof.
  unfold uiInvariant; repeat split.
  - apply mount_loaderConsistent.
  - apply mount_selection.
  - unfold mount; rewrite loadVoices_commands; intros N; destruct N;
      reflexivity.
  - unfold mount; rewrite loadVoices_isSpeaking; discriminate.
  - unfold mount; rewrite loadVoices_commands; intros u [].
Qed.

Lemma ui_session_uiInvariant (availableVoices : list Voice) (es : list Event) :
  uiDriven es (mount availableVoices initialWorld) = true ->
  uiInvariant (session availableVoices es).
Proof.
  apply (ui_session_invariant uiInvariant);
    [apply mount_uiInvariant | exact step_uiInvariant].
Qed.

(** C7: once the loading flag is false it is false after any further
    events of the session, whatever they are; and at every point of a
    session made of the events the platform and the rendered controls
    deliver (the voice selector offers the identifiers of the catalog and
    nothing else), whenever the catalog is not empty the selected
    identifier is that of a voice of the catalog. *)
Theorem catalog_invariants
  (availableVoices : list Voice) (es1 es2 : list Event) :
  let w1 := session availableVoices es1 in
  let w2 := session availableVoices (es1 ++ es2) in
  (isLoadingVoices (app w1) = false -> isLoadingVoices (app w2) = false) /\
  (uiDriven (es1 ++ es2) (mount availableVoices initialWorld) = true ->
   voices (app w2) <> [] ->
   exists v : Voice,
     In v (voices (app w2)) /\ voiceURI v = selectedVoiceURI (app w2)).
Proof.
  cbv zeta; split.
  - unfold session; rewrite run_app.
    apply run_loaded, run_allWired, mount_allWired.
  - intros U N.
    destruct (ui_session_uiInvariant availableVoices (es1 ++ es2) U)
      as (_ & S & _).
    specialize (S N); unfold voiceOptions in S.
    apply in_map_iff in S; destruct S as (v & E & I).
    exists v; split; assumption.
Qed.

Lemma catalog_invariants_witness :
  isLoadingVoices
    (app (session [v1; v2]
                  ([ChangeVoice (JsString.lit "v2")] ++ speakingTrace))) = false /\
  exists v : Voice,
    In v (voices
            (app (session [v1; v2]
                          ([ChangeVoice (JsString.lit "v2")] ++ speakingTrace)))) /\
    voiceURI v
    = selectedVoiceURI
        (app (session [v1; v2]
                      ([ChangeVoice (JsString.lit "v2")] ++ speakingTrace))).
Proof.
  split.
  - apply (proj1 (catalog_invariants
                    [v1; v2] [ChangeVoice (JsString.lit "v2")] speakingTrace)).
    reflexivity.
  - apply (proj2 (catalog_invariants
                    [v1; v2] [ChangeVoice (JsString.lit "v2")] speakingTrace)).
    + reflexivity.
    + discriminate.
Defined.

(** X8: in a session driven through the rendered controls, every
    utterance submitted to the engine has a voice set: the Speak button is
    enabled only once the catalog is loaded, and the selector only offers
    voices of the catalog, so the platform default is never relied on. *)
Theorem ui_utterances_have_voice
  (availableVoices : list Voice) (es : list Event) (u : Utterance) :
  uiDriven es (mount availableVoices initialWorld) = true ->
  In u (submitted (commands (session availableVoices es))) ->
  exists v, u_voice u = Some v.
Proof.
  intros U; revert u.
  apply (ui_session_uiInvariant availableVoices es U).
Qed.

Lemma ui_utterances_have_voice_witness :
  exists v,
    u_voice (utteranceOf
               (app (session [v1; v2]
                             [ChangeVoice (JsString.lit "v2");
                              ChangeText (JsString.lit "hello")])))
    = Some v.
Proof.
  apply (ui_utterances_have_voice
           [v1; v2]
           [ChangeVoice (JsString.lit "v2"); ChangeText (JsString.lit "hello");
            ClickSpeak]).
  - reflexivity.
  - left; reflexivity.
Defined.

(** X9: in a session driven through the rendered controls, nothing
    that happens while the state is Speaking changes the text, the catalog,
    the voice selection, the pitch, the rate or the loading flag: the form
    controls are disabled, the Speak button is replaced by Stop, and the
    loader has detached itself before anything could be spoken. *)
Theorem no_parameter_change_while_speaking
  (availableVoices : list Voice) (es : list Event) (e : Event) :
  uiDriven (es ++ [e]) (mount availableVoices initialWorld) = true ->
  isSpeaking (app (session availableVoices es)) = true ->
  let s := app (session availableVoices es) in
  let s' := app (session availableVoices (es ++ [e])) in
  text s' = text s /\
  voices s' = voices s /\
  selectedVoiceURI s' = selectedVoiceURI s /\
  pitch s' = pitch s /\
  rate s' = rate s /\
  isLoadingVoices s' = isLoadingVoices s.
Proof.
  intros U T; cbv zeta; unfold session in *.
  rewrite run_app; simpl.
  rewrite uiDriven_app in U; apply andb_true_iff in U; destruct U as [U A].
  simpl in A; rewrite andb_true_r in A.
  pose proof (ui_session_uiInvariant availableVoices es U) as I.
  pose proof (session_allWired availableVoices es) as W.
  unfold session in I, W; revert T A I W.
  generalize (run es (mount availableVoices initialWorld)); intros w T A I W.
  destruct I as (L & _ & NL & SP & _).
  assert (Eo : onvoiceschanged w = None).
  { destruct L as [(_ & C & _) | (Eo & _)]; [|exact Eo].
    rewrite (NL (SP T)) in C; discriminate. }
  assert (D : (exists a, e = VoicesChanged a) \/
              (forall a, e <> VoicesChanged a)).
  { destruct e; try (right; intros a; discriminate).
    left; eexists; reflexivity. }
  destruct D as [[a ->] | N].
  - simpl; unfold voiceschanged; rewrite Eo; repeat split.
  - destruct (step_params e w W) as (Et & Ep & Er).
    destruct (step_loader_frame e w W N) as (Ev & El & _).
    rewrite Et, Ep, Er, Ev, El, (step_selected e w W N).
    destruct e; simpl in A; unfold textAreaDisabled, sliderDisabled,
      voiceSelectorDisabled, selectorDisabled in A; rewrite ?T in A;
      try rewrite orb_true_r in A; simpl in A;
      try discriminate; repeat split.
Qed.

Lemma no_parameter_change_while_speaking_witness :
  text (app (session [v1; v2] (speakingTrace ++ [ClickStop])))
  = text (app (session [v1; v2] speakingTrace)) /\
  voices (app (session [v1; v2] (speakingTrace ++ [ClickStop])))
  = voices (app (session [v1; v2] speakingTrace)) /\
  selectedVoiceURI (app (session [v1; v2] (speakingTrace ++ [ClickStop])))
  = selectedVoiceURI (app (session [v1; v2] speakingTrace)) /\
  pitch (app (session [v1; v2] (speakingTrace ++ [ClickStop])))
  = pitch (app (session [v1; v2] speakingTrace)) /\
  rate (app (session [v1; v2] (speakingTrace ++ [ClickStop])))
  = rate (app (session [v1; v2] speakingTrace)) /\
  isLoadingVoices (app (session [v1; v2] (speakingTrace ++ [ClickStop])))
  = isLoadingVoices (app (session [v1; v2] speakingTrace)).
Proof.
  apply (no_parameter_change_while_speaking [v1; v2] speakingTrace ClickStop);
    reflexivity.
Defined.

(** ** The action button *)

(** X10: the condition that disables the Speak button covers the guard
    of [handleSpeak]: clicking the rendered button while it is enabled
    always reaches the engine, with one cancel when it is Stop and with a
    cancel followed by the submission when it is Speak; and whenever
    [handleSpeak] would refuse in the Idle state, the button is
    disabled. *)
Theorem enabled_button_always_acts (w : World) :
  (b_disabled (actionButton (app w)) = false ->
   commands (b_onClick (actionButton (app w)) w)
   = commands w
     ++ (if isSpeaking (app w) then [Cancel]
         else [Cancel; Speak (utteranceOf (app w))])) /\
  (isSpeaking (app w) = false -> speakRefused (app w) = true ->
   b_disabled (actionButton (app w)) = true).
Proof.
  unfold actionButton, speakRefused, speakButtonDisabled.
  destruct (isSpeaking (app w)) eqn:T; simpl.
  - split; [reflexivity | discriminate].
  - split.
    + intros D.
      assert (R : speakRefused (app w) = false).
      { unfold speakRefused; rewrite T.
        destruct (JsString.truthy (JsString.trim (text (app w))));
          [reflexivity | discriminate]. }
      rewrite (handleSpeak_accepted w R); simpl.
      rewrite <- app_assoc; reflexivity.
    + intros _ R; rewrite orb_false_r in R; rewrite R; reflexivity.
Qed.

Lemma enabled_button_always_acts_witness :
  commands (b_onClick
              (actionButton
                 (app (step (ChangeText (JsString.lit "hello")) mounted)))
              (step (ChangeText (JsString.lit "hello")) mounted))
  = [Cancel;
     Speak (utteranceOf
              (app (step (ChangeText (JsString.lit "hello")) mounted)))] /\
  b_disabled (actionButton (app mounted)) = true.
Proof.
  split.
  - apply (proj1 (enabled_button_always_acts
                    (step (ChangeText (JsString.lit "hello")) mounted))).
    reflexivity.
  - apply (proj2 (enabled_button_always_acts mounted)); reflexivity.
Defined.

(** X11: the speaker icon is never rendered pulsing.  [App] renders it
    only in the branch taken when [isSpeaking] is false, and passes it that
    same [isSpeaking], so its class is always the plain one and the
    [animate-pulse] alternative of [SpeakerIcon] is never taken. *)
Theorem speaker_icon_never_pulses (s : AppState) (pulsing : bool) :
  b_icon (actionButton s) = SpeakerIcon pulsing ->
  pulsing = false /\
  isSpeaking s = false /\ isLoadingVoices s = false /\
  iconClassName (b_icon (actionButton s)) = JsString.lit "w-6 h-6 ".
Proof.
  unfold actionButton.
  destruct (isSpeaking s) eqn:T; simpl; [discriminate|].
  destruct (isLoadingVoices s); simpl; [discriminate|].
  intros E; injection E as <-; repeat split.
Qed.

Lemma speaker_icon_never_pulses_witness :
  false = false /\
  isSpeaking (app mounted) = false /\ isLoadingVoices (app mounted) = false /\
  iconClassName (b_icon (actionButton (app mounted))) = JsString.lit "w-6 h-6 ".
Proof.
  apply (speaker_icon_never_pulses (app mounted) false); reflexivity.
Defined.

(** ** Speaking from start to end *)

Lemma nth_error_last {A : Type} (l : list A) (a : A) :
  nth_error (l ++ [a]) (List.length l) = Some a.
Proof.
  induction l as [|x l IH]; simpl; [reflexivity | exact IH].
Qed.

(** X12: from any state in which [handleSpeak] accepts, the click
    leaves the state Idle, the start callback of the utterance just
    submitted makes it Speaking, and its end or error callback then
    restores exactly the React state before the click; over the whole cycle
    the engine received one cancel and one submission. *)
Theorem speak_start_end_cycle (w : World) :
  speakRefused (app w) = false ->
  let k := List.length (submitted (commands w)) in
  isSpeaking (app (step ClickSpeak w)) = false /\
  isSpeaking (app (run [ClickSpeak; FireStart k] w)) = true /\
  app (run [ClickSpeak; FireStart k; FireEnd k] w) = app w /\
  app (run [ClickSpeak; FireStart k; FireError k] w) = app w /\
  commands (run [ClickSpeak; FireStart k; FireEnd k] w)
  = commands w ++ [Cancel; Speak (utteranceOf (app w))].
Proof.
  intros R k; subst k.
  assert (T : isSpeaking (app w) = false).
  { unfold speakRefused in R; apply orb_false_iff in R; tauto. }
  assert (N : nth_error
                (submitted
                   ((commands w ++ [Cancel]) ++ [Speak (utteranceOf (app w))]))
                (List.length (submitted (commands w)))
              = Some (utteranceOf (app w))).
  { rewrite !submitted_app; simpl; rewrite app_nil_r.
    apply nth_error_last. }
  simpl; rewrite (handleSpeak_accepted w R).
  unfold fire; simpl; rewrite N; simpl; rewrite N; simpl.
  rewrite <- app_assoc; simpl.
  repeat split; try exact T; rewrite <- T; destruct (app w); reflexivity.
Qed.

Lemma speak_start_end_cycle_witness :
  isSpeaking
    (app (step ClickSpeak (step (ChangeText (JsString.lit "hello")) mounted)))
  = false /\
  isSpeaking
    (app (run [ClickSpeak; FireStart 0]
              (step (ChangeText (JsString.lit "hello")) mounted))) = true /\
  app (run [ClickSpeak; FireStart 0; FireEnd 0]
           (step (ChangeText (JsString.lit "hello")) mounted))
  = app (step (ChangeText (JsString.lit "hello")) mounted) /\
  app (run [ClickSpeak; FireStart 0; FireError 0]
           (step (ChangeText (JsString.lit "hello")) mounted))
  = app (step (ChangeText (JsString.lit "hello")) mounted) /\
  commands (run [ClickSpeak; FireStart 0; FireEnd 0]
                (step (ChangeText (JsString.lit "hello")) mounted))
  = [Cancel;
     Speak (utteranceOf
              (app (step (ChangeText (JsString.lit "hello")) mounted)))].
Proof.
  apply (speak_start_end_cycle
           (step (ChangeText (JsString.lit "hello")) mounted)).
  reflexivity.
Defined.

(** X13: a second click on Speak before the engine has announced the
    start is not refused: the state is still Idle, the button is still
    enabled if it was, and the same request is submitted again behind a
    second cancel. *)
Theorem double_speak_before_start (w : World) :
  speakRefused (app w) = false ->
  run [ClickSpeak; ClickSpeak] w
  = mkWorld (app w) (onvoiceschanged w)
            (commands w
             ++ [Cancel; Speak (utteranceOf (app w));
                 Cancel; Speak (utteranceOf (app w))]) /\
  uiAllows ClickSpeak (app (step ClickSpeak w)) = uiAllows ClickSpeak (app w).
Proof.
  intros R; simpl step; split.
  - simpl; rewrite (handleSpeak_accepted w R).
    unfold handleSpeak; simpl; rewrite R.
    unfold issue; simpl; rewrite <- !app_assoc; reflexivity.
  - rewrite handleSpeak_app; reflexivity.
Qed.

Lemma double_speak_before_start_witness :
  run [ClickSpeak; ClickSpeak]
      (step (ChangeText (JsString.lit "hello")) mounted)
  = mkWorld
      (app (step (ChangeText (JsString.lit "hello")) mounted))
      None
      [Cancel;
       Speak (utteranceOf
                (app (step (ChangeText (JsString.lit "hello")) mounted)));
       Cancel;
       Speak (utteranceOf
                (app (step (ChangeText (JsString.lit "hello")) mounted)))] /\
  uiAllows ClickSpeak
           (app (step ClickSpeak
                      (step (ChangeText (JsString.lit "hello")) mounted)))
  = uiAllows ClickSpeak
             (app (step (ChangeText (JsString.lit "hello")) mounted)).
Proof.
  apply (double_speak_before_start
           (step (ChangeText (JsString.lit "hello")) mounted)).
  reflexivity.
Defined.

(** ** Nothing reaches the engine while the voices are loading *)

Lemma step_idle_engine (e : Event) (w : World) :
  allWired w ->
  uiInvariant w /\ (isLoadingVoices (app w) = true -> commands w = []) ->
  uiAllows e (app w) = true ->
  uiInvariant (step e w) /\
  (isLoadingVoices (app (step e w)) = true -> commands (step e w) = []).
Proof.
  intros W [I C] A; split; [apply step_uiInvariant; assumption|].
  intros L'.
  assert (L : isLoadingVoices (app w) = true).
  { destruct (isLoadingVoices (app w)) eqn:L; [reflexivity|].
    rewrite (step_loaded e w W L) in L'; discriminate. }
  destruct I as (_ & _ & _ & SP & _).
  destruct (step_commands e w) as [-> | [(-> & _) | (-> & _ & _)]].
  - apply C, L.
  - simpl in A; apply andb_true_iff in A; destruct A as [T _].
    destruct (SP T); rewrite (C L); reflexivity.
  - destruct (uiAllows_clickSpeak _ A) as (_ & F & _); congruence.
Qed.

(** X14: in a session driven through the rendered controls, no command
    at all is issued to the engine as long as the voices are loading: Speak
    is disabled, and Stop is not rendered since nothing can have
    started. *)
Theorem engine_untouched_while_loading
  (availableVoices : list Voice) (es : list Event) :
  uiDriven es (mount availableVoices initialWorld) = true ->
  isLoadingVoices (app (session availableVoices es)) = true ->
  commands (session availableVoices es) = [].
Proof.
  intros U.
  apply (ui_session_invariant
           (fun w => uiInvariant w /\
                     (isLoadingVoices (app w) = true -> commands w = []))
           availableVoices); [| exact step_idle_engine | exact U].
  split; [apply mount_uiInvariant|].
  intros _; unfold mount; rewrite loadVoices_commands; reflexivity.
Qed.

Lemma engine_untouched_while_loading_witness :
  commands
    (session [] [ChangeText (JsString.lit "hello"); VoicesChanged [];
                 ChangePitch 1.5%float])
  = [].
Proof.
  apply (engine_untouched_while_loading
           []
           [ChangeText (JsString.lit "hello"); VoicesChanged [];
            ChangePitch 1.5%float]);
    reflexivity.
Defined.
